(** * cuIBM: the fractional-step Navier-Stokes solver

    A shallow embedding of [src/include/solvers/NavierStokes/NavierStokesSolver.h].

    The header declares the class [NavierStokesSolver<memoryType>]: its data
    members, the signatures of its methods, and the bodies of two of them
    (the three-pointer overload of [generateQT] and [name]).  The other
    method bodies live in translation units that are not part of the sources
    at hand; where a property depends on one of them, the method is modelled
    from the design document and marked as such.

    Layout: scalars and dense sums, [cusp::array1d], [cusp::coo_matrix], the
    solver record, the methods, sample data, and then the lemmas. *)

From Stdlib Require Import String QArith Qcanon Lia Bool Arith ZArith List.
Import ListNotations.

(** ** Scalars *)

(** [real] is a typedef of [types.h] (single or double precision).  It is
    taken here as the field of exact rationals, so that every statement below
    is about the arithmetic the method is designed in, not about rounding. *)
Abbreviation real := Qc (only parsing).

Definition Qcleb (a b : real) : bool := Qle_bool a b.

(** Sum of [f 0 .. f (n-1)]. *)
Fixpoint bigsum (n : nat) (f : nat -> real) : real :=
  match n with
  | O => 0%Qc
  | S k => (bigsum k f + f k)%Qc
  end.

(** Sum of a list of scalars. *)
Definition lsum (l : list real) : real := fold_right Qcplus 0%Qc l.

(** ** cusp::array1d<real, memoryType> *)

Definition array1d : Type := list real.

Module Array1d.

(** [x[i]]; an index past the end reads as zero. *)
Definition get (x : array1d) (i : nat) : real := nth i x 0%Qc.

Definition tabulate (n : nat) (f : nat -> real) : array1d := map f (seq 0 n).

Definition zeros (n : nat) : array1d := tabulate n (fun _ => 0%Qc).

(** [cusp::blas::axpby(x, y, z, alpha, beta)]: z = alpha*x + beta*y. *)
Definition axpby (x y : array1d) (alpha beta : real) : array1d :=
  tabulate (length x) (fun i => (alpha * get x i + beta * get y i)%Qc).

(** [cusp::blas::dot(x, y)]. *)
Definition dot (x y : array1d) : real :=
  bigsum (length x) (fun i => (get x i * get y i)%Qc).



End Array1d.

(** ** cusp::coo_matrix<int, real, memoryType> *)

(** A matrix in coordinate format: its shape and the list of its stored
    entries (row index, column index, value).  An index pair may be stored
    more than once; the matrix element is the sum of the stored values. *)
Record coo_matrix : Type := mkCoo {
  num_rows : nat;
  num_cols : nat;
  entries : list (nat * nat * real)
}.

Module Coo.

Definition at_pos (i j : nat) (e : nat * nat * real) : real :=
  let '(r, c, v) := e in if (r =? i) && (c =? j) then v else 0%Qc.

(** Element (i, j) of the matrix. *)
Definition entry (A : coo_matrix) (i j : nat) : real :=
  lsum (map (at_pos i j) (entries A)).

Definition row_term (x : array1d) (i : nat) (e : nat * nat * real) : real :=
  let '(r, c, v) := e in if r =? i then (v * Array1d.get x c)%Qc else 0%Qc.

(** Row [i] of [A] applied to [x]. *)
Definition row_sum (A : coo_matrix) (x : array1d) (i : nat) : real :=
  lsum (map (row_term x i) (entries A)).

(** [cusp::multiply(A, x, y)] for a vector [x]. *)
Definition multiply_mv (A : coo_matrix) (x : array1d) : array1d :=
  Array1d.tabulate (num_rows A) (row_sum A x).

Definition join (a : nat * nat * real) (b : nat * nat * real)
  : list (nat * nat * real) :=
  let '(i, k, u) := a in
  let '(k', j, v) := b in
  if k =? k' then [(i, j, (u * v)%Qc)] else [].

(** [cusp::multiply(A, B, C)] for two matrices. *)
Definition multiply (A B : coo_matrix) : coo_matrix :=
  {| num_rows := num_rows A;
     num_cols := num_cols B;
     entries := flat_map (fun a => flat_map (join a) (entries B)) (entries A) |}.

(** [cusp::transpose(A, At)]. *)
Definition transpose (A : coo_matrix) : coo_matrix :=
  {| num_rows := num_cols A;
     num_cols := num_rows A;
     entries := map (fun '(i, j, v) => (j, i, v)) (entries A) |}.

Definition scale (c : real) (A : coo_matrix) : coo_matrix :=
  {| num_rows := num_rows A;
     num_cols := num_cols A;
     entries := map (fun '(i, j, v) => (i, j, (c * v)%Qc)) (entries A) |}.

(** [cusp::add(A, B, C)]. *)
Definition add (A B : coo_matrix) : coo_matrix :=
  {| num_rows := num_rows A;
     num_cols := num_cols A;
     entries := entries A ++ entries B |}.

(** [cusp::subtract(A, B, C)]. *)
Definition subtract (A B : coo_matrix) : coo_matrix :=
  add A (scale (- (1))%Qc B).

Definition identity (n : nat) : coo_matrix :=
  {| num_rows := n;
     num_cols := n;
     entries := map (fun i => (i, i, 1%Qc)) (seq 0 n) |}.

Fixpoint power (n : nat) (X : coo_matrix) (k : nat) : coo_matrix :=
  match k with
  | O => identity n
  | S k' => multiply X (power n X k')
  end.

(** Every stored index lies inside an [r] by [c] shape. *)
Definition in_range (r c : nat) (A : coo_matrix) : bool :=
  forallb (fun '(i, j, _) => (i <? r) && (j <? c)) (entries A).

(** [A] is an [r] by [c] matrix. *)
Definition fits (r c : nat) (A : coo_matrix) : bool :=
  (num_rows A =? r) && (num_cols A =? c) && in_range r c A.

End Coo.

(** ** Dense matrices, for stating what the sparse operations compute *)

Definition dense : Type := nat -> nat -> real.

Definition dense_identity (n : nat) : dense :=
  fun i j => if (i =? j) && (i <? n) then 1%Qc else 0%Qc.

Definition dense_mul (n : nat) (F G : dense) : dense :=
  fun i j => bigsum n (fun k => (F i k * G k j)%Qc).

Definition dense_sub (F G : dense) : dense :=
  fun i j => (F i j - G i j)%Qc.

Fixpoint dense_power (n : nat) (F : dense) (k : nat) : dense :=
  match k with
  | O => dense_identity n
  | S k' => dense_mul n F (dense_power n F k')
  end.

(** ** External collaborators *)

(** Modelled from the spec: [integrationScheme] ([integrationScheme.h] is
    not at hand).  It supplies the number of sub-steps of one outer step and,
    per sub-step, the implicit coefficient and the weights of the explicit
    terms. *)
Record integrationScheme : Type := mkScheme {
  subSteps : nat;
  alpha : list real;
  explicitWeights : list real
}.

(** Modelled from the spec: [parameterDB] ([parameterDB.h] is not at hand).
    The parameter record: viscosity, timestep size, the order of the
    approximate-inverse series, tolerance and iteration cap of each of the
    two linear solves, and the total number of steps. *)
Record parameterDB : Type := mkParams {
  nu : real;
  dt : real;
  seriesOrder : nat;
  velocityTolerance : real;
  velocityMaxIterations : nat;
  poissonTolerance : real;
  poissonMaxIterations : nat;
  nt : nat
}.

(** Modelled from the spec: [domain] ([domain.h] is not at hand): cell counts
    and cell widths per axis. *)
Record domain : Type := mkDomain {
  nx : nat;
  ny : nat;
  dx : list real;
  dy : list real
}.

(** The member [logger] has a type of [io/io.h]; no modelled method reads or
    writes it. *)
Definition Logger : Type := list string.

(** ** Conjugate gradients *)

(** Modelled from the spec: the iterative solver behind both linear solves
    (it comes from the cusp library).  A preconditioned conjugate-gradient
    iteration that starts from the current content of the unknown, tests the
    residual against [tol] times the norm of the right-hand side before every
    iteration, and gives up after [maxIter] iterations; it returns the last
    iterate together with the number of iterations performed. *)
Module Krylov.

Record cg_state : Type := mkCg {
  cg_x : array1d;
  cg_r : array1d;
  cg_p : array1d;
  cg_rz : real;
  cg_iters : nat
}.

(** The norm test, on squares: |r| <= tol * |b|. *)
Definition converged (tol : real) (b r : array1d) : bool :=
  Qcleb (Array1d.dot r r) (tol * tol * Array1d.dot b b)%Qc.

Definition cg_init (A P : coo_matrix) (x0 b : array1d) : cg_state :=
  let r0 := Array1d.axpby b (Coo.multiply_mv A x0) 1%Qc (- (1))%Qc in
  let z0 := Coo.multiply_mv P r0 in
  {| cg_x := x0; cg_r := r0; cg_p := z0;
     cg_rz := Array1d.dot r0 z0; cg_iters := 0 |}.

Definition cg_iterate (A P : coo_matrix) (st : cg_state) : cg_state :=
  let Ap := Coo.multiply_mv A (cg_p st) in
  let a := (cg_rz st / Array1d.dot (cg_p st) Ap)%Qc in
  let x' := Array1d.axpby (cg_x st) (cg_p st) 1%Qc a in
  let r' := Array1d.axpby (cg_r st) Ap 1%Qc (- a)%Qc in
  let z' := Coo.multiply_mv P r' in
  let rz' := Array1d.dot r' z' in
  let b := (rz' / cg_rz st)%Qc in
  {| cg_x := x'; cg_r := r'; cg_p := Array1d.axpby z' (cg_p st) 1%Qc b;
     cg_rz := rz'; cg_iters := S (cg_iters st) |}.

Fixpoint cg_loop (A P : coo_matrix) (b : array1d) (tol : real)
    (budget : nat) (st : cg_state) : cg_state :=
  match budget with
  | O => st
  | S budget' =>
      if converged tol b (cg_r st) then st
      else cg_loop A P b tol budget' (cg_iterate A P st)
  end.

(** [cusp::krylov::cg(A, x, b, monitor, P)]. *)
Definition cg (A P : coo_matrix) (x0 b : array1d) (tol : real)
    (maxIter : nat) : cg_state :=
  cg_loop A P b tol maxIter (cg_init A P x0 b).

End Krylov.

(** ** class NavierStokesSolver *)

Module NavierStokesSolver.

(** The data members, grouped as the header declares them. *)

(** [cusp::coo_matrix<int, real, memoryType> M, Minv, L, A, QT, Q, BN, C;] *)
Record matrices : Type := mkMatrices {
  m_M : coo_matrix;
  m_Minv : coo_matrix;
  m_L : coo_matrix;
  m_A : coo_matrix;
  m_QT : coo_matrix;
  m_Q : coo_matrix;
  m_BN : coo_matrix;
  m_C : coo_matrix
}.

(** [cusp::array1d<real, memoryType> q, qStar, lambda, rn, H, rhs1, rhs2,
    bc1, bc2, temp2, temp1, bc[4], qOld;] *)
Record arrays : Type := mkArrays {
  a_q : array1d;
  a_qStar : array1d;
  a_lambda : array1d;
  a_rn : array1d;
  a_H : array1d;
  a_rhs1 : array1d;
  a_rhs2 : array1d;
  a_bc1 : array1d;
  a_bc2 : array1d;
  a_temp2 : array1d;
  a_temp1 : array1d;
  a_bc : list array1d;
  a_qOld : array1d
}.

(** [size_t timeStep, subStep, iterationCount1, iterationCount2;] *)
Record counters : Type := mkCounters {
  c_timeStep : nat;
  c_subStep : nat;
  c_iterationCount1 : nat;
  c_iterationCount2 : nat
}.

(** [real forceX, forceY, force1;] *)
Record forces : Type := mkForces {
  f_forceX : real;
  f_forceY : real;
  f_force1 : real
}.

(** The two output streams are append-only; a stream is the list of the
    rows written so far. *)
Record solver : Type := mkSolver {
  paramDB : parameterDB;
  domInfo : domain;
  intgSchm : integrationScheme;
  QCoeff : real;
  mats : matrices;
  arrs : arrays;
  cnts : counters;
  frcs : forces;
  logger : Logger;
  forceFile : list (nat * real * real);
  iterationsFile : list (nat * nat * nat)
}.

(** Member access. *)
Definition M (s : solver) := m_M (mats s).
Definition Minv (s : solver) := m_Minv (mats s).
Definition L (s : solver) := m_L (mats s).
Definition A (s : solver) := m_A (mats s).
Definition QT (s : solver) := m_QT (mats s).
Definition Q (s : solver) := m_Q (mats s).
Definition BN (s : solver) := m_BN (mats s).
Definition C (s : solver) := m_C (mats s).
Definition q (s : solver) := a_q (arrs s).
Definition qStar (s : solver) := a_qStar (arrs s).
Definition lambda (s : solver) := a_lambda (arrs s).
Definition rn (s : solver) := a_rn (arrs s).
Definition rhs1 (s : solver) := a_rhs1 (arrs s).
Definition rhs2 (s : solver) := a_rhs2 (arrs s).
Definition bc1 (s : solver) := a_bc1 (arrs s).
Definition bc2 (s : solver) := a_bc2 (arrs s).
Definition temp2 (s : solver) := a_temp2 (arrs s).
Definition temp1 (s : solver) := a_temp1 (arrs s).
Definition bc (s : solver) := a_bc (arrs s).
Definition qOld (s : solver) := a_qOld (arrs s).
Definition timeStep (s : solver) := c_timeStep (cnts s).
Definition subStep (s : solver) := c_subStep (cnts s).
Definition iterationCount1 (s : solver) := c_iterationCount1 (cnts s).
Definition iterationCount2 (s : solver) := c_iterationCount2 (cnts s).
Definition forceX (s : solver) := f_forceX (frcs s).
Definition forceY (s : solver) := f_forceY (frcs s).
Definition force1 (s : solver) := f_force1 (frcs s).

(** Member assignment. *)
Definition with_mats (f : matrices -> matrices) (s : solver) : solver :=
  mkSolver (paramDB s) (domInfo s) (intgSchm s) (QCoeff s) (f (mats s))
           (arrs s) (cnts s) (frcs s) (logger s) (forceFile s)
           (iterationsFile s).
Definition with_arrs (f : arrays -> arrays) (s : solver) : solver :=
  mkSolver (paramDB s) (domInfo s) (intgSchm s) (QCoeff s) (mats s)
           (f (arrs s)) (cnts s) (frcs s) (logger s) (forceFile s)
           (iterationsFile s).
Definition with_cnts (f : counters -> counters) (s : solver) : solver :=
  mkSolver (paramDB s) (domInfo s) (intgSchm s) (QCoeff s) (mats s)
           (arrs s) (f (cnts s)) (frcs s) (logger s) (forceFile s)
           (iterationsFile s).
Definition with_frcs (f : forces -> forces) (s : solver) : solver :=
  mkSolver (paramDB s) (domInfo s) (intgSchm s) (QCoeff s) (mats s)
           (arrs s) (cnts s) (f (frcs s)) (logger s) (forceFile s)
           (iterationsFile s).
Definition with_forceFile (rows : list (nat * real * real)) (s : solver)
  : solver :=
  mkSolver (paramDB s) (domInfo s) (intgSchm s) (QCoeff s) (mats s)
           (arrs s) (cnts s) (frcs s) (logger s) rows (iterationsFile s).

Definition set_BN (v : coo_matrix) : solver -> solver :=
  with_mats (fun m => mkMatrices (m_M m) (m_Minv m) (m_L m) (m_A m)
                                 (m_QT m) (m_Q m) v (m_C m)).
Definition set_C (v : coo_matrix) : solver -> solver :=
  with_mats (fun m => mkMatrices (m_M m) (m_Minv m) (m_L m) (m_A m)
                                 (m_QT m) (m_Q m) (m_BN m) v).

Definition set_q (v : array1d) : solver -> solver :=
  with_arrs (fun a => mkArrays v (a_qStar a) (a_lambda a) (a_rn a) (a_H a)
    (a_rhs1 a) (a_rhs2 a) (a_bc1 a) (a_bc2 a) (a_temp2 a) (a_temp1 a)
    (a_bc a) (a_qOld a)).
Definition set_qStar (v : array1d) : solver -> solver :=
  with_arrs (fun a => mkArrays (a_q a) v (a_lambda a) (a_rn a) (a_H a)
    (a_rhs1 a) (a_rhs2 a) (a_bc1 a) (a_bc2 a) (a_temp2 a) (a_temp1 a)
    (a_bc a) (a_qOld a)).
Definition set_lambda (v : array1d) : solver -> solver :=
  with_arrs (fun a => mkArrays (a_q a) (a_qStar a) v (a_rn a) (a_H a)
    (a_rhs1 a) (a_rhs2 a) (a_bc1 a) (a_bc2 a) (a_temp2 a) (a_temp1 a)
    (a_bc a) (a_qOld a)).
Definition set_rn (v : array1d) : solver -> solver :=
  with_arrs (fun a => mkArrays (a_q a) (a_qStar a) (a_lambda a) v (a_H a)
    (a_rhs1 a) (a_rhs2 a) (a_bc1 a) (a_bc2 a) (a_temp2 a) (a_temp1 a)
    (a_bc a) (a_qOld a)).
Definition set_rhs1 (v : array1d) : solver -> solver :=
  with_arrs (fun a => mkArrays (a_q a) (a_qStar a) (a_lambda a) (a_rn a)
    (a_H a) v (a_rhs2 a) (a_bc1 a) (a_bc2 a) (a_temp2 a) (a_temp1 a)
    (a_bc a) (a_qOld a)).
Definition set_rhs2 (v : array1d) : solver -> solver :=
  with_arrs (fun a => mkArrays (a_q a) (a_qStar a) (a_lambda a) (a_rn a)
    (a_H a) (a_rhs1 a) v (a_bc1 a) (a_bc2 a) (a_temp2 a) (a_temp1 a)
    (a_bc a) (a_qOld a)).
Definition set_bc1 (v : array1d) : solver -> solver :=
  with_arrs (fun a => mkArrays (a_q a) (a_qStar a) (a_lambda a) (a_rn a)
    (a_H a) (a_rhs1 a) (a_rhs2 a) v (a_bc2 a) (a_temp2 a) (a_temp1 a)
    (a_bc a) (a_qOld a)).
Definition set_bc2 (v : array1d) : solver -> solver :=
  with_arrs (fun a => mkArrays (a_q a) (a_qStar a) (a_lambda a) (a_rn a)
    (a_H a) (a_rhs1 a) (a_rhs2 a) (a_bc1 a) v (a_temp2 a) (a_temp1 a)
    (a_bc a) (a_qOld a)).
Definition set_bc (v : list array1d) : solver -> solver :=
  with_arrs (fun a => mkArrays (a_q a) (a_qStar a) (a_lambda a) (a_rn a)
    (a_H a) (a_rhs1 a) (a_rhs2 a) (a_bc1 a) (a_bc2 a) (a_temp2 a)
    (a_temp1 a) v (a_qOld a)).
Definition set_qOld (v : array1d) : solver -> solver :=
  with_arrs (fun a => mkArrays (a_q a) (a_qStar a) (a_lambda a) (a_rn a)
    (a_H a) (a_rhs1 a) (a_rhs2 a) (a_bc1 a) (a_bc2 a) (a_temp2 a)
    (a_temp1 a) (a_bc a) v).

Definition set_timeStep (v : nat) : solver -> solver :=
  with_cnts (fun c => mkCounters v (c_subStep c) (c_iterationCount1 c)
                                 (c_iterationCount2 c)).
Definition set_subStep (v : nat) : solver -> solver :=
  with_cnts (fun c => mkCounters (c_timeStep c) v (c_iterationCount1 c)
                                 (c_iterationCount2 c)).
Definition set_iterationCount1 (v : nat) : solver -> solver :=
  with_cnts (fun c => mkCounters (c_timeStep c) (c_subStep c) v
                                 (c_iterationCount2 c)).
Definition set_iterationCount2 (v : nat) : solver -> solver :=
  with_cnts (fun c => mkCounters (c_timeStep c) (c_subStep c)
                                 (c_iterationCount1 c) v).
Definition set_forceXY (fx fy : real) : solver -> solver :=
  with_frcs (fun f => mkForces fx fy (f_force1 f)).

(** *** Methods whose bodies the header gives *)

(** The memory that raw pointers range over: an address holds an [int], a
    [real], or nothing. *)
Inductive cell : Type :=
| IntCell (z : Z)
| RealCell (r : real).

Definition pointer : Type := Z.

Definition memory : Type := pointer -> option cell.

(** The [n] cells of the array that starts at [p]. *)
Definition read_array (mem : memory) (p : pointer) (n : nat)
  : list (option cell) :=
  map (fun i => mem (p + Z.of_nat i)%Z) (seq 0 n).

(** [virtual void generateQT(int *QTRows, int *QTCols, real *QTVals){}]

    The method receives the object and three raw pointers and returns
    nothing; what it could change is the object and the memory behind the
    pointers, so the model returns both as they are when the body has run.
    The pointers may be null, may alias each other and may point anywhere.
    The body is empty. *)
Definition generateQT (s : solver) (mem : memory)
    (QTRows QTCols QTVals : pointer) : solver * memory :=
  (s, mem).

(** [virtual std::string name() { return "Navier-Stokes"; }] *)
Definition name (s : solver) : string := "Navier-Stokes"%string.

(** *** What the external collaborators and the virtual methods supply *)

(** Modelled from the spec: the bodies of the virtual generators
    ([generateRN], [generateBC1], [generateBC2], [updateSolverState],
    [calculateForce]), of [assembleRHS1] and of [updateBoundaryConditions]
    are not at hand, and the design document leaves their formulas to the
    integration scheme and to the boundary specification.  They enter as
    functions that read the solver and yield the new content of the member
    they fill; [advanceState] may rewrite the whole object.  The
    preconditioners of the two solves are configuration, too. *)
Record kernels : Type := mkKernels {
  explicitTerms : solver -> array1d;
  boundaryTerms1 : solver -> array1d;
  rhs1Terms : solver -> array1d;
  boundaryTerms2 : solver -> array1d;
  boundaryValues : solver -> list array1d;
  advanceState : solver -> solver;
  forceTerms : solver -> real * real;
  preconditioner1 : solver -> coo_matrix;
  preconditioner2 : solver -> coo_matrix
}.

(** *** Methods whose bodies are not at hand *)

(** Modelled from the spec: the series behind [generateBN], the sum of
    [X^k * Minv] for [k] from 0 to [order], on sparse matrices. *)
Fixpoint neumann_series (n : nat) (X Minv0 : coo_matrix) (order : nat)
  : coo_matrix :=
  match order with
  | O => Coo.multiply (Coo.power n X 0) Minv0
  | S k => Coo.add (neumann_series n X Minv0 k)
                   (Coo.multiply (Coo.power n X (S k)) Minv0)
  end.

(** Modelled from the spec: [generateBN] (declared, body not at hand).
    BN is the truncated series: the sum over k from 0 to n of
    (I - A)^k * Minv, with n the series order of the configuration. *)
Definition generateBN (s : solver) : solver :=
  let n := num_rows (A s) in
  set_BN (neumann_series n (Coo.subtract (Coo.identity n) (A s)) (Minv s)
                         (seriesOrder (paramDB s))) s.

(** Modelled from the spec: [generateC] (declared, body not at hand).
    C = QT * BN * Q. *)
Definition generateC (s : solver) : solver :=
  set_C (Coo.multiply (Coo.multiply (QT s) (BN s)) (Q s)) s.

(** Modelled from the spec: [generateRN] (declared, body not at hand)
    fills rn with the explicit convective and diffusive terms. *)
Definition generateRN (K : kernels) (s : solver) : solver :=
  set_rn (explicitTerms K s) s.

(** Modelled from the spec: [generateBC1] (declared, body not at hand)
    fills bc1 with the boundary contribution of the diffusion operator. *)
Definition generateBC1 (K : kernels) (s : solver) : solver :=
  set_bc1 (boundaryTerms1 K s) s.

(** Modelled from the spec: [assembleRHS1] (declared, body not at hand)
    fills rhs1 from the previous flux, the explicit terms and bc1. *)
Definition assembleRHS1 (K : kernels) (s : solver) : solver :=
  set_rhs1 (rhs1Terms K s) s.

(** Modelled from the spec: [generateBC2] (declared, body not at hand)
    fills bc2 with the boundary contribution of the coupling operator. *)
Definition generateBC2 (K : kernels) (s : solver) : solver :=
  set_bc2 (boundaryTerms2 K s) s.

(** Modelled from the spec: [assembleRHS2] (declared, body not at hand).
    rhs2 combines the divergence of the intermediate flux, QT * qStar, with
    the boundary contribution bc2; the combination is the difference, so
    that C * lambda = rhs2 asks for QT * q = bc2 after the projection. *)
Definition assembleRHS2 (s : solver) : solver :=
  set_rhs2 (Array1d.axpby (Coo.multiply_mv (QT s) (qStar s)) (bc2 s)
                          1%Qc (- (1))%Qc) s.

(** Modelled from the spec: [solveIntermediateVelocity] (declared, body not
    at hand).  Solves A * qStar = rhs1 by the iterative solver and records
    the number of iterations. *)
Definition solveIntermediateVelocity (K : kernels) (s : solver) : solver :=
  let res := Krylov.cg (A s) (preconditioner1 K s) (qStar s) (rhs1 s)
                       (velocityTolerance (paramDB s))
                       (velocityMaxIterations (paramDB s)) in
  set_iterationCount1 (Krylov.cg_iters res) (set_qStar (Krylov.cg_x res) s).

(** Modelled from the spec: [solvePoisson] (declared, body not at hand).
    Solves C * lambda = rhs2 by the same solver and policy. *)
Definition solvePoisson (K : kernels) (s : solver) : solver :=
  let res := Krylov.cg (C s) (preconditioner2 K s) (lambda s) (rhs2 s)
                       (poissonTolerance (paramDB s))
                       (poissonMaxIterations (paramDB s)) in
  set_iterationCount2 (Krylov.cg_iters res)
                      (set_lambda (Krylov.cg_x res) s).

(** Modelled from the spec: [projectionStep] (declared, body not at hand).
    q = qStar - BN * Q * lambda, as two matrix-vector products and one
    vector update. *)
Definition projectionStep (s : solver) : solver :=
  set_q (Array1d.axpby (qStar s)
           (Coo.multiply_mv (BN s) (Coo.multiply_mv (Q s) (lambda s)))
           1%Qc (- (1))%Qc) s.

(** Modelled from the spec: [updateBoundaryConditions] (declared, body not
    at hand) refreshes the boundary-condition buffers. *)
Definition updateBoundaryConditions (K : kernels) (s : solver) : solver :=
  set_bc (boundaryValues K s) s.

(** Modelled from the spec: [updateSolverState] (declared, body not at
    hand) advances whatever internal state the solver variant keeps. *)
Definition updateSolverState (K : kernels) (s : solver) : solver :=
  advanceState K s.

(** Modelled from the spec: [calculateForce] (declared, body not at hand).
    The force components are stored and one row is appended to the force
    log. *)
Definition calculateForce (K : kernels) (s : solver) : solver :=
  let '(fx, fy) := forceTerms K s in
  with_forceFile (forceFile s ++ [(timeStep s, fx, fy)])
                 (set_forceXY fx fy s).

(** *** The time-stepping driver *)

(** The calls [stepTime] makes, as events. *)
Inductive phase : Type :=
| BeginStep
| BeginSubStep
| GenerateRN
| GenerateBC1
| AssembleRHS1
| SolveIntermediateVelocity
| GenerateBC2
| AssembleRHS2
| SolvePoisson
| ProjectionStep
| UpdateBoundaryConditions
| UpdateSolverState
| CalculateForce
| EndStep.

Abbreviation action := (phase * (solver -> solver))%type (only parsing).

(** Sub-step [k]: its counter is set and the two iteration counters are
    reset, then right-hand side, intermediate velocity, right-hand side of
    the multiplier system, multiplier solve, projection, and the updates
    for the next sub-step. *)
Definition substep_actions (K : kernels) (k : nat) : list action :=
  [ (BeginSubStep, fun s => set_iterationCount2 0
                              (set_iterationCount1 0 (set_subStep k s)));
    (GenerateRN, generateRN K);
    (GenerateBC1, generateBC1 K);
    (AssembleRHS1, assembleRHS1 K);
    (SolveIntermediateVelocity, solveIntermediateVelocity K);
    (GenerateBC2, generateBC2 K);
    (AssembleRHS2, assembleRHS2);
    (SolvePoisson, solvePoisson K);
    (ProjectionStep, projectionStep);
    (UpdateBoundaryConditions, updateBoundaryConditions K);
    (UpdateSolverState, updateSolverState K) ].

(** One outer step with [n] sub-steps. *)
Definition stepTime_actions (K : kernels) (n : nat) : list action :=
  (BeginStep, fun s => set_qOld (q s) s)
    :: flat_map (substep_actions K) (seq 0 n)
    ++ [ (CalculateForce, calculateForce K);
         (EndStep, fun s => set_timeStep (S (timeStep s)) s) ].

Definition run_actions (l : list action) (s : solver) : solver :=
  fold_left (fun st a => snd a st) l s.

(** Modelled from the spec: [stepTime] (declared, body not at hand).  The
    previous flux is saved; every sub-step of the integration scheme runs
    its phases in order; then the forces are computed and the step counter
    advances. *)
Definition stepTime (K : kernels) (s : solver) : solver :=
  run_actions (stepTime_actions K (subSteps (intgSchm s))) s.


(** *** Shapes *)

(** The members are dimensionally consistent: with [nq] flux unknowns and
    [nl] multipliers, A and BN are [nq] by [nq], QT is [nl] by [nq], Q is
    [nq] by [nl], C is [nl] by [nl], and the vectors have the matching
    lengths.  These are the shapes that the products QT * BN * Q,
    QT * qStar and BN * Q * lambda need. *)
Definition consistent (s : solver) : bool :=
  let nq := length (q s) in
  let nl := length (lambda s) in
  Coo.fits nq nq (A s) && Coo.fits nq nq (BN s) && Coo.fits nl nq (QT s)
  && Coo.fits nq nl (Q s) && Coo.fits nl nl (C s)
  && (length (qStar s) =? nq) && (length (rhs1 s) =? nq)
  && (length (rhs2 s) =? nl) && (length (bc2 s) =? nl).



End NavierStokesSolver.

(** ** Sample data *)

(** A grid with three faces and two cells; one sub-step per step. *)
Module Sample.

Import NavierStokesSolver.

Definition frac (n : Z) (d : positive) : real := Q2Qc (n # d).

Definition QT0 : coo_matrix :=
  mkCoo 2 3 [ (0, 0, frac 1 1); (0, 1, frac (-1) 1);
              (1, 1, frac 1 1); (1, 2, frac (-1) 1) ]%nat.

Definition A0 : coo_matrix :=
  mkCoo 3 3 [ (0, 0, frac 1 1); (0, 1, frac (-1) 4);
              (1, 0, frac (-1) 4); (1, 1, frac 1 1); (1, 2, frac (-1) 4);
              (2, 1, frac (-1) 4); (2, 2, frac 1 1) ]%nat.

Definition L0 : coo_matrix :=
  mkCoo 3 3 [ (0, 0, frac (-2) 1); (0, 1, frac 1 1);
              (1, 0, frac 1 1); (1, 1, frac (-2) 1); (1, 2, frac 1 1);
              (2, 1, frac 1 1); (2, 2, frac (-2) 1) ]%nat.

Definition params0 : parameterDB :=
  {| nu := frac 1 100; dt := frac 1 100; seriesOrder := 1;
     velocityTolerance := frac 1 1000; velocityMaxIterations := 10;
     poissonTolerance := frac 1 1000; poissonMaxIterations := 1;
     nt := 2 |}.

Definition domain0 : domain :=
  {| nx := 2; ny := 1; dx := [frac 1 2; frac 1 2]; dy := [frac 1 1] |}.

Definition scheme0 : integrationScheme :=
  {| subSteps := 1; alpha := [frac 1 2]; explicitWeights := [frac 1 1] |}.

Definition zero_arrays (nq nl : nat) : arrays :=
  {| a_q := Array1d.zeros nq; a_qStar := Array1d.zeros nq;
     a_lambda := Array1d.zeros nl; a_rn := Array1d.zeros nq;
     a_H := Array1d.zeros nq; a_rhs1 := Array1d.zeros nq;
     a_rhs2 := Array1d.zeros nl; a_bc1 := Array1d.zeros nq;
     a_bc2 := Array1d.zeros nl; a_temp2 := Array1d.zeros nl;
     a_temp1 := Array1d.zeros nq;
     a_bc := [Array1d.zeros 1; Array1d.zeros 1;
              Array1d.zeros 2; Array1d.zeros 2];
     a_qOld := Array1d.zeros nq |}.

(** The same parameters with room for ten iterations of the multiplier
    solve. *)
Definition params1 : parameterDB :=
  {| nu := frac 1 100; dt := frac 1 100; seriesOrder := 1;
     velocityTolerance := frac 1 1000; velocityMaxIterations := 10;
     poissonTolerance := frac 1 1000; poissonMaxIterations := 10;
     nt := 2 |}.

(** The object before BN and C are built. *)
Definition raw_with (p : parameterDB) : solver :=
  {| paramDB := p; domInfo := domain0; intgSchm := scheme0;
     QCoeff := frac 1 1;
     mats := {| m_M := Coo.identity 3; m_Minv := Coo.identity 3;
                m_L := L0; m_A := A0; m_QT := QT0;
                m_Q := Coo.transpose QT0;
                m_BN := mkCoo 3 3 []; m_C := mkCoo 2 2 [] |};
     arrs := zero_arrays 3 2;
     cnts := {| c_timeStep := 0; c_subStep := 0;
                c_iterationCount1 := 0; c_iterationCount2 := 0 |};
     frcs := {| f_forceX := frac 0 1; f_forceY := frac 0 1;
                f_force1 := frac 0 1 |};
     logger := [];
     forceFile := [];
     iterationsFile := [] |}.

Definition raw : solver := raw_with params0.

(** All matrices assembled, all fields at rest. *)
Definition rest : solver := generateC (generateBN raw).

(** The same object holding an intermediate flux through the first face. *)
Definition stirred : solver :=
  set_qStar [frac 1 1; frac 0 1; frac 0 1] rest.

(** The same again, with the larger iteration cap. *)
Definition patient : solver :=
  set_qStar [frac 1 1; frac 0 1; frac 0 1]
            (generateC (generateBN (raw_with params1))).

(** At rest but for a flux through the first face. *)
Definition moving : solver :=
  set_q [frac 1 1; frac 0 1; frac 0 1] rest.

(** Generators of a problem without forcing: the explicit terms and the
    right-hand side follow the flux, the boundary contributions vanish. *)
Definition still : kernels :=
  {| explicitTerms := fun s => Array1d.axpby (q s) (qOld s) 1%Qc 0%Qc;
     boundaryTerms1 := fun s => Array1d.zeros (length (q s));
     rhs1Terms := fun s => Array1d.axpby (rn s) (bc1 s) 1%Qc 1%Qc;
     boundaryTerms2 := fun s => Array1d.zeros (length (lambda s));
     boundaryValues := fun s => bc s;
     advanceState := fun s => s;
     forceTerms := fun s => (0%Qc, 0%Qc);
     preconditioner1 := fun s => Coo.identity (length (q s));
     preconditioner2 := fun s => Coo.identity (length (lambda s)) |}.

(** [stirred] after the right-hand side assembly and the multiplier solve:
    lambda is (2/3, 0). *)
Definition solved : solver := solvePoisson still (assembleRHS2 stirred).

End Sample.

(** ** The series, stated on dense matrices *)

(** The truncated series of the design document: the sum over k from 0 to
    [order] of (I - A)^k * Minv, for [n] by [n] matrices. *)
Definition truncated_series (n : nat) (A Minv : dense) (order : nat) : dense :=
  fun i j =>
    bigsum (S order) (fun k =>
      dense_mul n (dense_power n (dense_sub (dense_identity n) A) k) Minv i j).

(** * Properties *)

(** ** Sums *)

Local Open Scope Qc_scope.

Lemma distr_r (a b c : real) : (a + b) * c = a * c + b * c.
Proof. ring. Qed.

Lemma bigsum_ext (n : nat) (f g : nat -> real) :
  (forall i, (i < n)%nat -> f i = g i) -> bigsum n f = bigsum n g.
Proof.
  induction n as [|n IH]; intros E; simpl; [reflexivity|].
  rewrite IH by (intros; apply E; lia).
  rewrite (E n) by lia. reflexivity.
Qed.

Lemma bigsum_zero (n : nat) : bigsum n (fun _ => 0) = 0.
Proof. induction n as [|n IH]; simpl; [reflexivity|]. rewrite IH. ring. Qed.

Lemma bigsum_add (n : nat) (f g : nat -> real) :
  bigsum n (fun i => f i + g i) = bigsum n f + bigsum n g.
Proof. induction n as [|n IH]; simpl; [ring|]. rewrite IH. ring. Qed.

Lemma bigsum_scale (n : nat) (c : real) (f : nat -> real) :
  bigsum n (fun i => c * f i) = c * bigsum n f.
Proof. induction n as [|n IH]; simpl; [ring|]. rewrite IH. ring. Qed.

(** A sum with a single non-zero term. *)
Lemma bigsum_pick (n c : nat) (g : nat -> real) :
  bigsum n (fun j => if c =? j then g j else 0)
  = if (c <? n)%nat then g c else 0.
Proof.
  induction n as [|n IH]; simpl; [reflexivity|].
  rewrite IH.
  destruct (Nat.eqb_spec c n) as [->|Hne].
  - rewrite Nat.ltb_irrefl.
    replace (n <? S n)%nat with true by (symmetry; apply Nat.ltb_lt; lia).
    ring.
  - destruct (Nat.ltb_spec c n), (Nat.ltb_spec c (S n)); try lia; ring.
Qed.

(** Equality of computed scalars and of lists of them. *)
Ltac qc_eq :=
  lazymatch goal with
  | |- @eq Qc _ _ => apply Qc_is_canon; reflexivity
  | |- @eq (list _) (_ :: _) (_ :: _) => apply f_equal2; qc_eq
  | |- _ => reflexivity
  end.

Lemma lsum_app (l1 l2 : list real) : lsum (l1 ++ l2) = lsum l1 + lsum l2.
Proof.
  induction l1 as [|a l1 IH]; simpl; [ring|]. rewrite IH. ring.
Qed.

(** ** Arrays *)

Lemma length_tabulate (n : nat) (f : nat -> real) :
  length (Array1d.tabulate n f) = n.
Proof. unfold Array1d.tabulate. rewrite length_map, length_seq. reflexivity. Qed.

Lemma get_tabulate (n : nat) (f : nat -> real) (i : nat) :
  (i < n)%nat -> Array1d.get (Array1d.tabulate n f) i = f i.
Proof.
  intros Hi. unfold Array1d.get, Array1d.tabulate.
  rewrite (nth_indep _ 0 (f 0%nat)) by (rewrite length_map, length_seq; lia).
  rewrite map_nth, seq_nth by lia. reflexivity.
Qed.


Lemma length_axpby (x y : array1d) (a b : real) :
  length (Array1d.axpby x y a b) = length x.
Proof. apply length_tabulate. Qed.

Lemma get_axpby (x y : array1d) (a b : real) (i : nat) :
  (i < length x)%nat ->
  Array1d.get (Array1d.axpby x y a b) i
  = a * Array1d.get x i + b * Array1d.get y i.
Proof. intros Hi. unfold Array1d.axpby. rewrite get_tabulate by exact Hi. reflexivity. Qed.




(** ** Sparse matrices denote dense ones *)

Lemma fits_inv (r c : nat) (A : coo_matrix) :
  Coo.fits r c A = true ->
  num_rows A = r /\ num_cols A = c /\ Coo.in_range r c A = true.
Proof.
  unfold Coo.fits. rewrite !andb_true_iff, !Nat.eqb_eq. tauto.
Qed.

Lemma in_range_entries (r c : nat) (A : coo_matrix) :
  Coo.in_range r c A = true <->
  Forall (fun e => (fst (fst e) < r)%nat /\ (snd (fst e) < c)%nat) (entries A).
Proof.
  unfold Coo.in_range. rewrite forallb_forall, Forall_forall.
  split; intros Hx e He; specialize (Hx e He); destruct e as [[i j] v];
    simpl in *; rewrite andb_true_iff, !Nat.ltb_lt in *; exact Hx.
Qed.

(** A row applied to a vector is the dense row-by-vector sum. *)
Lemma row_sum_dense (r c : nat) (A : coo_matrix) (x : array1d) (i : nat) :
  Coo.in_range r c A = true ->
  Coo.row_sum A x i
  = bigsum c (fun j => Coo.entry A i j * Array1d.get x j).
Proof.
  rewrite in_range_entries. unfold Coo.row_sum, Coo.entry.
  induction (entries A) as [|e l IH]; intros Hr; simpl.
  - rewrite (bigsum_ext _ _ (fun _ => 0)); [symmetry; apply bigsum_zero|].
    intros; ring.
  - inversion Hr as [|e' l' [_ Hc] Hl]; subst.
    rewrite (IH Hl). symmetry.
    erewrite bigsum_ext; [rewrite bigsum_add|intros; apply distr_r].
    f_equal.
    destruct e as [[r0 c0] v]. simpl in Hc |- *.
    destruct (r0 =? i)%nat; simpl.
    + rewrite (bigsum_ext _ _
        (fun j => if (c0 =? j)%nat then v * Array1d.get x j else 0)).
      * rewrite bigsum_pick.
        replace (c0 <? c)%nat with true by (symmetry; apply Nat.ltb_lt; exact Hc).
        reflexivity.
      * intros j _. destruct (c0 =? j)%nat; ring.
    + rewrite (bigsum_ext _ _ (fun _ => 0)); [apply bigsum_zero|].
      intros; ring.
Qed.

Lemma length_multiply_mv (A : coo_matrix) (x : array1d) :
  length (Coo.multiply_mv A x) = num_rows A.
Proof. apply length_tabulate. Qed.

Lemma get_multiply_mv (r c : nat) (A : coo_matrix) (x : array1d) (i : nat) :
  Coo.fits r c A = true -> (i < r)%nat ->
  Array1d.get (Coo.multiply_mv A x) i
  = bigsum c (fun j => Coo.entry A i j * Array1d.get x j).
Proof.
  intros HA Hi. apply fits_inv in HA. destruct HA as (Hr & _ & Hin).
  unfold Coo.multiply_mv. rewrite get_tabulate by lia.
  apply (row_sum_dense r c), Hin.
Qed.

Lemma entry_add (A B : coo_matrix) (i j : nat) :
  Coo.entry (Coo.add A B) i j = Coo.entry A i j + Coo.entry B i j.
Proof.
  unfold Coo.entry, Coo.add. simpl. rewrite map_app. apply lsum_app.
Qed.

Lemma entry_scale (c : real) (A : coo_matrix) (i j : nat) :
  Coo.entry (Coo.scale c A) i j = c * Coo.entry A i j.
Proof.
  unfold Coo.entry, Coo.scale. simpl.
  induction (entries A) as [|[[r k] v] l IH]; simpl; [ring|].
  rewrite IH. destruct ((r =? i)%nat && (k =? j)%nat); ring.
Qed.

Lemma entry_subtract (A B : coo_matrix) (i j : nat) :
  Coo.entry (Coo.subtract A B) i j = Coo.entry A i j - Coo.entry B i j.
Proof.
  unfold Coo.subtract. rewrite entry_add, entry_scale. ring.
Qed.

Lemma entry_identity (n i j : nat) :
  Coo.entry (Coo.identity n) i j = dense_identity n i j.
Proof.
  unfold Coo.entry, Coo.identity, dense_identity. simpl.
  rewrite map_map.
  assert (G : forall m, lsum (map (fun x => Coo.at_pos i j (x, x, 1)) (seq 0 m))
                        = if (i =? j)%nat && (i <? m)%nat then 1 else 0).
  { induction m as [|m IH].
    - simpl. rewrite andb_false_r. reflexivity.
    - rewrite seq_S, map_app, lsum_app, IH. simpl.
      destruct (Nat.eqb_spec m i) as [->|Hmi]; simpl.
      + rewrite Nat.ltb_irrefl, andb_false_r.
        replace (i <? S i)%nat with true by (symmetry; apply Nat.ltb_lt; lia).
        rewrite andb_true_r. destruct (i =? j)%nat; ring.
      + destruct (Nat.eqb_spec i j) as [->|Hij]; simpl; [|ring].
        destruct (Nat.ltb_spec j m), (Nat.ltb_spec j (S m)); try lia; ring. }
  apply G.
Qed.

Lemma entry_join (r0 k0 : nat) (u : real) (lb : list (nat * nat * real))
    (i j : nat) :
  lsum (map (Coo.at_pos i j) (flat_map (Coo.join (r0, k0, u)) lb))
  = (if (r0 =? i)%nat then u else 0) * lsum (map (Coo.at_pos k0 j) lb).
Proof.
  induction lb as [|[[k' j'] v] lb IHb]; simpl.
  - ring.
  - rewrite map_app, lsum_app, IHb.
    destruct (Nat.eqb_spec k0 k') as [->|Hk]; simpl.
    + rewrite Nat.eqb_refl. simpl.
      destruct (r0 =? i)%nat, (j' =? j)%nat; simpl; ring.
    + replace (k' =? k0)%nat with false
        by (symmetry; apply Nat.eqb_neq; congruence).
      simpl. ring.
Qed.

(** The sparse product denotes the dense product. *)
Lemma entry_multiply (r n : nat) (A B : coo_matrix) (i j : nat) :
  Coo.in_range r n A = true ->
  Coo.entry (Coo.multiply A B) i j
  = dense_mul n (Coo.entry A) (Coo.entry B) i j.
Proof.
  rewrite in_range_entries. unfold dense_mul, Coo.entry, Coo.multiply. simpl.
  induction (entries A) as [|a l IH]; intros Hr; simpl.
  - rewrite (bigsum_ext _ _ (fun _ => 0)); [symmetry; apply bigsum_zero|].
    intros; ring.
  - inversion Hr as [|a' l' [_ Hc] Hl]; subst.
    rewrite map_app, lsum_app, (IH Hl). symmetry.
    erewrite bigsum_ext; [rewrite bigsum_add|intros; apply distr_r].
    f_equal.
    destruct a as [[r0 k0] u]. simpl in Hc |- *.
    rewrite (bigsum_ext _ _
      (fun k => if (k0 =? k)%nat
                then (if (r0 =? i)%nat then u else 0)
                     * lsum (map (Coo.at_pos k j) (entries B))
                else 0)).
    + rewrite bigsum_pick.
      replace (k0 <? n)%nat with true by (symmetry; apply Nat.ltb_lt; exact Hc).
      symmetry. apply entry_join.
    + intros k _.
      destruct (r0 =? i)%nat, (k0 =? k)%nat; simpl; ring.
Qed.

(** ** The methods the header defines *)

Import NavierStokesSolver.

(** C9.  The three-pointer overload of [generateQT] of the base solver does
    nothing: for every object, every memory and every three pointers, the
    call returns with the object and the memory as they were, so each of the
    three arrays, at any length, reads the same after the call as before. *)
Theorem generateQT_writes_nothing (s : solver) (mem : memory)
    (QTRows QTCols QTVals : pointer) :
  generateQT s mem QTRows QTCols QTVals = (s, mem)
  /\ forall n,
       read_array (snd (generateQT s mem QTRows QTCols QTVals)) QTRows n
       = read_array mem QTRows n
       /\ read_array (snd (generateQT s mem QTRows QTCols QTVals)) QTCols n
          = read_array mem QTCols n
       /\ read_array (snd (generateQT s mem QTRows QTCols QTVals)) QTVals n
          = read_array mem QTVals n.
Proof.
  split; [reflexivity|]. intros n.
  unfold generateQT. cbn [snd]. split; [reflexivity|split; reflexivity].
Qed.

(** C10.  [name] of the base solver is the string "Navier-Stokes", for every
    object; in particular two objects never differ in it. *)
Theorem name_is_Navier_Stokes :
  (forall s : solver, name s = "Navier-Stokes"%string)
  /\ (forall s1 s2 : solver, name s1 = name s2).
Proof. split; intros; reflexivity. Qed.

(** ** The projection step *)

Lemma consistent_inv (s : solver) :
  consistent s = true ->
  Coo.fits (length (q s)) (length (q s)) (A s) = true
  /\ Coo.fits (length (q s)) (length (q s)) (BN s) = true
  /\ Coo.fits (length (lambda s)) (length (q s)) (QT s) = true
  /\ Coo.fits (length (q s)) (length (lambda s)) (Q s) = true
  /\ Coo.fits (length (lambda s)) (length (lambda s)) (C s) = true
  /\ length (qStar s) = length (q s)
  /\ length (rhs1 s) = length (q s)
  /\ length (rhs2 s) = length (lambda s)
  /\ length (bc2 s) = length (lambda s).
Proof.
  unfold consistent. rewrite !andb_true_iff, !Nat.eqb_eq. tauto.
Qed.

(** BN applied to Q applied to a vector, element by element. *)
Lemma get_BN_Q (nq nl : nat) (B G : coo_matrix) (x : array1d) (i : nat) :
  Coo.fits nq nq B = true -> Coo.fits nq nl G = true -> (i < nq)%nat ->
  Array1d.get (Coo.multiply_mv B (Coo.multiply_mv G x)) i
  = bigsum nq (fun j => bigsum nl (fun k =>
      Coo.entry B i j * Coo.entry G j k * Array1d.get x k)).
Proof.
  intros HB HG Hi.
  rewrite (get_multiply_mv nq nq) by assumption.
  apply bigsum_ext. intros j Hj.
  rewrite (get_multiply_mv nq nl) by assumption.
  rewrite <- bigsum_scale. apply bigsum_ext. intros k _. ring.
Qed.

(** C1.  The projection step is one linear update: element [i] of the new
    flux is element [i] of qStar minus the sum over j and k of
    BN(i,j) * Q(j,k) * lambda(k).  It writes the member q and nothing else;
    qStar, lambda, the matrices and the iteration counters are as before. *)
Theorem projectionStep_update (s : solver) :
  consistent s = true ->
  let s' := projectionStep s in
  length (q s') = length (q s)
  /\ (forall i, (i < length (q s))%nat ->
        Array1d.get (q s') i
        = Array1d.get (qStar s) i
          - bigsum (length (q s)) (fun j => bigsum (length (lambda s)) (fun k =>
              Coo.entry (BN s) i j * Coo.entry (Q s) j k
              * Array1d.get (lambda s) k)))
  /\ s' = set_q (q s') s
  /\ qStar s' = qStar s /\ lambda s' = lambda s
  /\ mats s' = mats s /\ cnts s' = cnts s.
Proof.
  intros Hc. apply consistent_inv in Hc.
  destruct Hc as (_ & HBN & _ & HQ & _ & HqS & _).
  cbv zeta. repeat split.
  - unfold projectionStep, q at 1, set_q. simpl.
    rewrite length_axpby. exact HqS.
  - intros i Hi. unfold projectionStep, q at 1, set_q. simpl.
    rewrite get_axpby by lia.
    rewrite (get_BN_Q (length (q s)) (length (lambda s))) by assumption.
    ring.
Qed.

Lemma projectionStep_update_witness :
  consistent Sample.solved = true
  /\ Array1d.get (q (projectionStep Sample.solved)) 0
     = Array1d.get (qStar Sample.solved) 0
       - bigsum 3 (fun j => bigsum 2 (fun k =>
           Coo.entry (BN Sample.solved) 0 j * Coo.entry (Q Sample.solved) j k
           * Array1d.get (lambda Sample.solved) k))
  /\ qStar (projectionStep Sample.solved) = qStar Sample.solved.
Proof.
  assert (Hc : consistent Sample.solved = true) by (vm_compute; reflexivity).
  destruct (projectionStep_update Sample.solved Hc)
    as (_ & Hq & _ & HqS & _).
  split; [exact Hc|]. split; [|exact HqS].
  apply (Hq 0%nat). vm_compute. lia.
Defined.

(** ** The approximate inverse *)

Lemma in_range_identity (n : nat) : Coo.in_range n n (Coo.identity n) = true.
Proof.
  rewrite in_range_entries. simpl. rewrite Forall_forall.
  intros e He. apply in_map_iff in He. destruct He as (i & <- & Hi).
  apply in_seq in Hi. simpl. lia.
Qed.

Lemma in_range_add (r c : nat) (A B : coo_matrix) :
  Coo.in_range r c A = true -> Coo.in_range r c B = true ->
  Coo.in_range r c (Coo.add A B) = true.
Proof.
  rewrite !in_range_entries. simpl. intros HA HB.
  apply Forall_app. split; assumption.
Qed.

Lemma in_range_scale (r c : nat) (k : real) (A : coo_matrix) :
  Coo.in_range r c A = true -> Coo.in_range r c (Coo.scale k A) = true.
Proof.
  rewrite !in_range_entries. simpl. rewrite !Forall_forall.
  intros HA e He. apply in_map_iff in He.
  destruct He as ([[i j] v] & <- & Hin). apply (HA _ Hin).
Qed.

Lemma in_range_multiply (r m m' c : nat) (A B : coo_matrix) :
  Coo.in_range r m A = true -> Coo.in_range m' c B = true ->
  Coo.in_range r c (Coo.multiply A B) = true.
Proof.
  rewrite !in_range_entries. simpl. rewrite !Forall_forall.
  intros HA HB e He. apply in_flat_map in He. destruct He as (a & Ha & He).
  apply in_flat_map in He. destruct He as (b & Hb & He).
  specialize (HA a Ha). specialize (HB b Hb).
  destruct a as [[i k] u], b as [[k' j] v]. simpl in *.
  destruct (k =? k')%nat; simpl in He; [|contradiction].
  destruct He as [<-|[]]. simpl. lia.
Qed.

Lemma in_range_power (n : nat) (X : coo_matrix) (k : nat) :
  Coo.in_range n n X = true -> Coo.in_range n n (Coo.power n X k) = true.
Proof.
  intros HX. induction k as [|k IH]; simpl.
  - apply in_range_identity.
  - apply (in_range_multiply n n n n); assumption.
Qed.

Lemma dense_mul_ext (n : nat) (F F' G G' : dense) (i j : nat) :
  (forall k, F i k = F' i k) -> (forall k, G k j = G' k j) ->
  dense_mul n F G i j = dense_mul n F' G' i j.
Proof.
  intros HF HG. unfold dense_mul. apply bigsum_ext. intros k _.
  rewrite HF, HG. reflexivity.
Qed.

Lemma dense_power_ext (n : nat) (F F' : dense) (k : nat) :
  (forall i j, F i j = F' i j) ->
  forall i j, dense_power n F k i j = dense_power n F' k i j.
Proof.
  intros HF. induction k as [|k IH]; intros i j; simpl; [reflexivity|].
  apply dense_mul_ext; intros; [apply HF|apply IH].
Qed.

Lemma entry_power (n : nat) (X : coo_matrix) (k i j : nat) :
  Coo.in_range n n X = true ->
  Coo.entry (Coo.power n X k) i j = dense_power n (Coo.entry X) k i j.
Proof.
  intros HX. revert i j. induction k as [|k IH]; intros i j; simpl.
  - apply entry_identity.
  - rewrite (entry_multiply n n) by exact HX.
    apply dense_mul_ext; intros; [reflexivity|apply IH].
Qed.

Lemma entry_neumann_series (n : nat) (X Minv0 : coo_matrix) (order i j : nat) :
  Coo.in_range n n X = true ->
  Coo.entry (neumann_series n X Minv0 order) i j
  = bigsum (S order) (fun k =>
      dense_mul n (dense_power n (Coo.entry X) k) (Coo.entry Minv0) i j).
Proof.
  intros HX.
  assert (T : forall k,
    Coo.entry (Coo.multiply (Coo.power n X k) Minv0) i j
    = dense_mul n (dense_power n (Coo.entry X) k) (Coo.entry Minv0) i j).
  { intros k. rewrite (entry_multiply n n) by (apply in_range_power, HX).
    apply dense_mul_ext; intros; [apply entry_power, HX|reflexivity]. }
  induction order as [|order IH].
  - cbn [neumann_series bigsum]. rewrite T. ring.
  - cbn [neumann_series]. rewrite entry_add, IH, T. reflexivity.
Qed.

(** C2.  [generateBN] stores in BN the truncated series of I - A applied to
    Minv, up to the series order of the configuration: element by element,
    BN is the sum over k from 0 to that order of (I - A)^k * Minv.  This
    holds for every square A; no other member changes. *)
Theorem generateBN_truncated_series (s : solver) (n : nat) :
  Coo.fits n n (A s) = true ->
  (forall i j,
     Coo.entry (BN (generateBN s)) i j
     = truncated_series n (Coo.entry (A s)) (Coo.entry (Minv s))
                        (seriesOrder (paramDB s)) i j)
  /\ generateBN s = set_BN (BN (generateBN s)) s.
Proof.
  intros HA. apply fits_inv in HA. destruct HA as (Hr & _ & Hin).
  split; [|reflexivity].
  intros i j.
  change (BN (generateBN s))
    with (neumann_series (num_rows (A s))
            (Coo.subtract (Coo.identity (num_rows (A s))) (A s)) (Minv s)
            (seriesOrder (paramDB s))).
  unfold truncated_series. rewrite Hr.
  assert (HX : Coo.in_range n n (Coo.subtract (Coo.identity n) (A s)) = true).
  { apply in_range_add; [apply in_range_identity|apply in_range_scale, Hin]. }
  rewrite (entry_neumann_series _ _ _ _ _ _ HX).
  apply bigsum_ext. intros k _.
  apply dense_mul_ext; intros; [|reflexivity].
  apply dense_power_ext. intros a b.
  rewrite entry_subtract, entry_identity. reflexivity.
Qed.

Lemma generateBN_truncated_series_witness :
  Coo.fits 3 3 (A Sample.raw) = true
  /\ forall i j,
       Coo.entry (BN (generateBN Sample.raw)) i j
       = truncated_series 3 (Coo.entry (A Sample.raw))
           (Coo.entry (Minv Sample.raw)) 1 i j.
Proof.
  split; [reflexivity|].
  apply (generateBN_truncated_series Sample.raw 3). reflexivity.
Defined.

(** ** A fluid at rest *)




























(** ** The sample problem, computed *)

(** BN of the sample is I + (I - A): ones on the diagonal, a quarter next to
    it. *)
Example sample_BN :
  map (fun i => map (Coo.entry (BN Sample.rest) i) [0; 1; 2]%nat) [0; 1; 2]%nat
  = [ [Sample.frac 1 1; Sample.frac 1 4; Sample.frac 0 1];
      [Sample.frac 1 4; Sample.frac 1 1; Sample.frac 1 4];
      [Sample.frac 0 1; Sample.frac 1 4; Sample.frac 1 1] ].
Proof. vm_compute. qc_eq. Qed.

(** C of the sample. *)
Example sample_C :
  map (fun i => map (Coo.entry (C Sample.rest) i) [0; 1]%nat) [0; 1]%nat
  = [ [Sample.frac 3 2; Sample.frac (-1) 2];
      [Sample.frac (-1) 2; Sample.frac 3 2] ].
Proof. vm_compute. qc_eq. Qed.

(** With room to iterate, the multiplier solve of the sample ends after two
    iterations on the exact solution (3/4, 1/4). *)
Example sample_solve_converges :
  lambda (solvePoisson Sample.still (assembleRHS2 Sample.patient))
  = [Sample.frac 3 4; Sample.frac 1 4]
  /\ iterationCount2 (solvePoisson Sample.still (assembleRHS2 Sample.patient))
     = 2%nat.
Proof.
  split.
  - vm_compute. qc_eq.
  - vm_compute. reflexivity.
Qed.

(** One outer step from the moving sample: the velocity solve takes three
    iterations, the multiplier solve stops at its cap of one, and the step
    counter advances. *)
Example sample_step :
  iterationCount1 (stepTime Sample.still Sample.moving) = 3%nat
  /\ iterationCount2 (stepTime Sample.still Sample.moving) = 1%nat
  /\ timeStep (stepTime Sample.still Sample.moving) = 1%nat.
Proof. repeat split; vm_compute; reflexivity. Qed.
